(** * Monte Carlo dropout uncertainty (chapter10/fashionMNIST_dropout_for_detection.ipynb)

    A shallow embedding of the notebook's numeric core: the function
    [uncertainty] (cell 15), the sampling loop that fills the two prediction
    tensors (cell 14), the per-image reduction loop (cell 16) and the cells
    that fix the image count (cells 9 to 13).

    Numbers.  The arrays of the notebook hold binary64 numbers.  Cells 15
    and 16 are written once over an arithmetic ([Num]) and read twice: over
    binary64 in numpy's order of operations ([uncertainty64], what the
    notebook computes, rounding included) and over the rationals.
    [uncertainty] and the functions of [Np] are that exact reading written
    as one expression over [Q], compared with [==]
    ([uncertainty_exact_reading]): they give the value the cell has
    without rounding, and the cells that only move, count and slice arrays
    are stated over them.  numpy yields nan for a division by a zero-length
    axis, where the rationals give 0, so every statement about a quotient
    is made for a non-empty first axis (L >= 1).

    Arrays.  A 1-d array is a list of numbers, a 2-d array of shape (L, C)
    is the list of its L rows, a 3-d array of shape (L, N, C) the list of
    its L (N, C) matrices.  A numpy array is rectangular; the lists that stand for
    one are described by [has_shape2] and [has_shape3]. *)

From Stdlib Require Import ZArith QArith Qfield Lqa Lia List Permutation Bool Arith Znat.
From Stdlib Require Import Setoid Morphisms.
From Stdlib Require Floats Uint63.
Import ListNotations PrimFloat.

Local Open Scope Q_scope.

(** ** numpy primitives used by the notebook, in exact arithmetic *)

Module Np.

Definition vector := list Q.
Definition array2 := list vector.
Definition array3 := list array2.

(** [predictions.shape[0]] and [predictions.shape[1]] of a 2-d array. *)
Definition shape0 {A : Type} (a : list A) : nat := length a.

Definition shape1 (P : array2) : nat :=
  match P with
  | [] => 0%nat
  | r :: _ => length r
  end.

Definition has_shape2 (L C : nat) (P : array2) : Prop :=
  length P = L /\ Forall (fun r => length r = C) P.

Definition has_shape3 (L N C : nat) (T : array3) : Prop :=
  length T = L /\ Forall (has_shape2 N C) T.

Definition of_nat (n : nat) : Q := inject_Z (Z.of_nat n).

(** [np.zeros] for the three ranks the notebook allocates. *)
Definition zeros1 (n : nat) : vector := repeat 0 n.
Definition zeros2 (n c : nat) : array2 := repeat (zeros1 c) n.
Definition zeros3 (l n c : nat) : array3 := repeat (zeros2 n c) l.

(** [np.square], element by element. *)
Definition square1 (v : vector) : vector := map (fun x => x * x) v.
Definition square2 (P : array2) : array2 := map square1 P.

(** [np.sum] without an axis: the sum of all the elements. *)
Definition sum1 (v : vector) : Q := fold_right Qplus 0 v.
Definition sum2 (P : array2) : Q := sum1 (map sum1 P).

(** Column [j] of a 2-d array, [P[:, j]]. *)
Definition column (j : nat) (P : array2) : vector :=
  map (fun r => nth j r 0) P.

(** [np.mean(P, axis=0)]: one entry per column, the column's sum divided by
    the number of rows. *)
Definition mean_axis0 (P : array2) : vector :=
  map (fun j => sum1 (column j P) / of_nat (shape0 P)) (seq 0 (shape1 P)).

(** [a[i] = v] on the first axis; [i] is in range at every use (the loop
    index of [range(L)] into an array allocated with first axis [L]). *)
Fixpoint setitem {A : Type} (a : list A) (i : nat) (v : A) : list A :=
  match a, i with
  | [], _ => []
  | _ :: a', O => v :: a'
  | x :: a', S i' => x :: setitem a' i' v
  end.

(** [T[:, i]] of a 3-d array: the (L, C) slice of image [i].  numpy raises
    IndexError for an index past the image axis; every use is at an index
    below the number of images. *)
Definition slice_image (T : array3) (i : nat) : array2 :=
  map (fun pass => nth i pass []) T.

End Np.

Import Np.

(** ** Cell 15: the uncertainty of one image's predictions

<<
def uncertainty(predictions):
    return(np.sum(np.square(predictions))/predictions.shape[0]
           - np.sum(np.square(np.mean(predictions, axis=0))))
>>
    Here with every operation exact; [Num.uncertainty] is the same cell
    over a given arithmetic and [uncertainty64] the cell in binary64. *)

Definition uncertainty (predictions : array2) : Q :=
  sum2 (square2 predictions) / of_nat (shape0 predictions)
  - sum1 (square1 (mean_axis0 predictions)).

(** ** The notebook's cells around [uncertainty]

    The trained Keras model and the helper [generate_adversarial_data]
    (imported from [strengtheningdnns.adversarial_utils]) are collaborators
    of the notebook and are taken as parameters.  The model contains
    [Dropout(0.2)(x, training=True)], so [model.predict] draws a dropout mask
    from TensorFlow's random generator at every call: a forward pass is a
    function of the generator's state and of the batch, and returns the new
    state.  The [session] threads that state through the cells and counts
    the notebook's [model.predict] calls. *)

Inductive exception : Set :=
  | EmptyBatch
  | InsufficientSamples.

(** How the evaluation of a group of cells ends. *)
Inductive outcome (A : Type) : Type :=
  | Returned (a : A)
  | Raised (e : exception).

Arguments Returned {A} a.
Arguments Raised {A} e.

Section Notebook.

Variable image : Type.
Variable rng : Type.
Variable forward : rng -> list image -> array2 * rng.
Variable generate_adversarial_data :
  list image -> array2 -> rng -> list image * rng.

Record session : Type := mkSession {
  rng_state : rng;
  predict_calls : nat
}.

(** [model.predict(x)] *)
Definition model_predict (x : list image) (s : session) : array2 * session :=
  let (y, g) := forward (rng_state s) x in
  (y, mkSession g (S (predict_calls s))).

(** The model's contract on shapes: one row of [C] entries per image
    (the last layer is [Dense(10)], so [C] is 10 in the notebook). *)
Definition forward_shape (C : nat) : Prop :=
  forall g x, has_shape2 (length x) C (fst (forward g x)).

Record datasets : Type := mkDatasets {
  x_images : list image;
  x_images_adv : list image;
  num_images : nat
}.

(** Cells 9 to 13.
<<
num_images = 1000
x_images = test_images[0:num_images, :]
(x_images_adv, _, _) = generate_adversarial_data(original_images = x_images,
                         predictions = model.predict(x_images), attack_fn = attack_fn)
num_images = x_images_adv.shape[0]
x_images = test_images[:num_images]
>>
    The requested count (1000 in the notebook) is the argument
    [requested]; of the triple the helper returns only the first
    component is kept, and the attack it runs may draw from the random
    generator, whose state it hands back. *)
Definition get_test_data (requested : nat) (test_images : list image)
    (s : session) : datasets * session :=
  let num_images0 := requested in
  let x_images0 := firstn num_images0 test_images in
  let (predictions, s1) := model_predict x_images0 s in
  let (adv, g) :=
    generate_adversarial_data x_images0 predictions (rng_state s1) in
  let s2 := mkSession g (predict_calls s1) in
  let num_images1 := shape0 adv in
  let x_images1 := firstn num_images1 test_images in
  (mkDatasets x_images1 adv num_images1, s2).

Record matrices : Type := mkMatrices {
  predictions_matrix : array3;
  predictions_matrix_adv : array3
}.

(** The body of the loop of cell 14, for loop index [i]. *)
Definition sample_pass (x xadv : list image) (acc : matrices * session)
    (i : nat) : matrices * session :=
  let (m, s) := acc in
  let (predictions, s1) := model_predict x s in
  let (predictions_adv, s2) := model_predict xadv s1 in
  (mkMatrices (setitem (predictions_matrix m) i predictions)
              (setitem (predictions_matrix_adv m) i predictions_adv), s2).

(** Cell 14, with [L] and [num_classes] (100 and 10 in the notebook) as
    arguments.
<<
predictions_matrix = np.zeros((L, num_images, num_classes))
predictions_matrix_adv = np.zeros((L, num_images, num_classes))
for i in range(L):
  predictions = model.predict(x_images)
  predictions_adv = model.predict(x_images_adv)
  predictions_matrix[i] = predictions
  predictions_matrix_adv[i] = predictions_adv
>>
    numpy accepts the two assignments when the value fits the slot of
    shape (num_images, num_classes); with [forward_shape] and batches of
    [num_images] images it does, and the model is meant for that case. *)
Definition build_matrices (L num_classes : nat) (d : datasets)
    (s : session) : matrices * session :=
  fold_left (sample_pass (x_images d) (x_images_adv d)) (seq 0 L)
    (mkMatrices (zeros3 L (num_images d) num_classes)
                (zeros3 L (num_images d) num_classes), s).

(** The body of the loop of cell 16, for loop index [i]. *)
Definition reduce_image (m : matrices) (acc : vector * vector) (i : nat)
    : vector * vector :=
  let (res, res_adv) := acc in
  (setitem res i (uncertainty (slice_image (predictions_matrix m) i)),
   setitem res_adv i (uncertainty (slice_image (predictions_matrix_adv m) i))).

(** Cell 16.
<<
uncertainty_results = np.zeros((num_images))
uncertainty_results_adv = np.zeros((num_images))
for i in range(num_images):
  uncertainty_results[i] = uncertainty(predictions_matrix[:,i])
  uncertainty_results_adv[i] = uncertainty(predictions_matrix_adv[:,i])
>> *)
Definition uncertainty_loop (n : nat) (m : matrices) : vector * vector :=
  fold_left (reduce_image m) (seq 0 n) (zeros1 n, zeros1 n).

Definition uncertainty_results (n : nat) (m : matrices) : vector :=
  fst (uncertainty_loop n m).
Definition uncertainty_results_adv (n : nat) (m : matrices) : vector :=
  snd (uncertainty_loop n m).

(** Cells 14 and 16 on given datasets: the estimator.  No cell contains a
    [raise] or an [assert], so the evaluation always returns. *)
Definition estimate (L num_classes : nat) (d : datasets) (s : session)
    : outcome (vector * vector) * session :=
  let (m, s') := build_matrices L num_classes d s in
  (Returned (uncertainty_loop (num_images d) m), s').

(** Cells 9 to 16. *)
Definition notebook (requested L num_classes : nat)
    (test_images : list image) (s : session)
    : datasets * outcome (vector * vector) * session :=
  let (d, s1) := get_test_data requested test_images s in
  let (r, s2) := estimate L num_classes d s1 in
  (d, r, s2).

End Notebook.

Arguments mkSession {rng} _ _.
Arguments rng_state {rng} _.
Arguments predict_calls {rng} _.
Arguments mkDatasets {image} _ _ _.
Arguments x_images {image} _.
Arguments x_images_adv {image} _.
Arguments num_images {image} _.
Arguments model_predict {image rng} forward x s.
Arguments forward_shape {image rng} forward C.
Arguments get_test_data {image rng} forward generate_adversarial_data
  requested test_images s.
Arguments build_matrices {image rng} forward L num_classes d s.
Arguments sample_pass {image rng} forward x xadv acc i.
Arguments estimate {image rng} forward L num_classes d s.
Arguments notebook {image rng} forward generate_adversarial_data
  requested L num_classes test_images s.

(** ** The words of the specification *)

Module Spec.






(** The population variance of a sample. *)
Definition variance (xs : vector) : Q :=
  let n := of_nat (length xs) in
  let m := sum1 xs / n in
  sum1 (map (fun x => (x - m) * (x - m)) xs) / n.

(** The sum over the classes of the variance of the class's probability
    across the passes. *)
Definition class_variances (ps : list vector) : Q :=
  sum1 (map (fun j => variance (column j ps)) (seq 0 (shape1 ps))).

(** A class-probability vector over [C] classes. *)
Definition probability_vector (C : nat) (p : vector) : Prop :=
  length p = C /\ Forall (fun x => 0 <= x) p /\ sum1 p == 1.

Definition vec_eq (u v : vector) : Prop := Forall2 Qeq u v.

Definition all_identical (ps : list vector) : Prop :=
  forall p q, In p ps -> In q ps -> vec_eq p q.

(** Two vectors rank their classes in the same order: every pair of
    classes compares the same way in both. *)
Definition same_rank_order (p q : vector) : bool :=
  (length p =? length q)%nat &&
  forallb (fun i =>
    forallb (fun j =>
      match nth i p 0 ?= nth j p 0, nth i q 0 ?= nth j q 0 with
      | Eq, Eq | Lt, Lt | Gt, Gt => true
      | _, _ => false
      end) (seq 0 (length p))) (seq 0 (length p)).


Fixpoint same_rank_orders (ps qs : list vector) : bool :=
  match ps, qs with
  | [], [] => true
  | p :: ps', q :: qs' => same_rank_order p q && same_rank_orders ps' qs'
  | _, _ => false
  end.

End Spec.

(** ** A small stand-in for the collaborators

    A two-class "model" over images named by numbers, whose answer depends
    on the generator state, and a "generator" that perturbs only the first
    two images it is given.  They instantiate the parameters of the
    notebook in the examples below. *)

Module Demo.

Definition forward (g : nat) (x : list nat) : array2 * nat :=
  (map (fun _ => if (g mod 3 =? 0)%nat then [1; 0] else [1 # 4; 3 # 4]) x,
   S g).

Definition generate_adversarial_data (x : list nat) (p : array2) (g : nat)
    : list nat * nat :=
  (firstn 2 x, g).

Definition test_images : list nat := [10; 11; 12; 13; 14]%nat.

Definition start : session nat := mkSession 0%nat 0%nat.

Definition data : datasets nat := mkDatasets [10; 11]%nat [20; 21]%nat 2.

Definition sampled : matrices := fst (build_matrices forward 2 2 data start).

(** The notebook on five test images, three requested, two passes. *)
Definition run : datasets nat * outcome (vector * vector) * session nat :=
  notebook forward generate_adversarial_data 3 2 2 test_images start.

End Demo.

(** ** Cell 1: scaling the pixels

<<
train_images = train_images/255.0
test_images = test_images/255.0
>>
    The images of the data set are arrays of 8-bit pixels; a pixel is a [Z]
    and an image the list of its rows. *)

Definition normalize_pixel (p : Z) : Q := inject_Z p / 255.

Definition normalize (images : list (list (list Z))) : list (list (list Q)) :=
  map (map (map normalize_pixel)) images.

(** The bounds handed to foolbox in cell 11,
    [TensorFlowModel.from_keras(model, bounds=(0, 1))]. *)
Definition bounds : Q * Q := (0, 1).

Definition within_bounds (x : Q) : Prop := fst bounds <= x /\ x <= snd bounds.

(** ** Notions used to state further properties of the cells *)

Module Aux.

(** The predictions of [n] iterations of the loop of cell 14, in the order
    of the calls: the clean batch, then the adversarial batch, each call
    starting from the generator state the previous one left. *)
Fixpoint passes {image rng : Type}
    (forward : rng -> list image -> array2 * rng)
    (x xadv : list image) (n : nat) (g : rng)
    : list array2 * list array2 * rng :=
  match n with
  | O => ([], [], g)
  | S n' =>
      let (p, g1) := forward g x in
      let (pa, g2) := forward g1 xadv in
      let '(ps, pas, g') := passes forward x xadv n' g2 in
      (p :: ps, pa :: pas, g')
  end.

End Aux.

(** ** The arithmetic of cell 15

    The arrays of the notebook hold binary64 numbers, and numpy fixes the
    order of the additions:
    - [np.square] multiplies every entry by itself and returns a new array,
      contiguous and in row order;
    - [np.sum] without an axis adds the entries of such an array pairwise:
      fewer than 8 entries one after the other; up to 128 entries on eight
      running sums, one per position modulo 8, that are then added two by
      two, the entries left over after the last full group of 8 being added
      one after the other; more than 128 entries by halves, the first half
      cut down to a multiple of 8;
    - [np.mean] along axis 0 adds the rows one after the other and divides
      by the number of rows;
    - the quotient by [predictions.shape[0]] is a division by that count.
    All of them start from the zero of the addition.

    The cell is written once, over the operations [arith], and read twice:
    over [binary64], which is what the notebook computes, and over
    [rational], with every operation exact. *)

Module Num.

Record arith (F : Type) : Type := mkArith {
  zero : F;
  add : F -> F -> F;
  sub : F -> F -> F;
  mul : F -> F -> F;
  div : F -> F -> F;
  of_count : nat -> F
}.

Arguments zero {F} _.
Arguments add {F} _ _ _.
Arguments sub {F} _ _ _.
Arguments mul {F} _ _ _.
Arguments div {F} _ _ _.
Arguments of_count {F} _ _.

Definition has_shape2 {F : Type} (L C : nat) (P : list (list F)) : Prop :=
  length P = L /\ Forall (fun r => length r = C) P.

Definition has_shape3 {F : Type} (L N C : nat) (T : list (list (list F)))
    : Prop :=
  length T = L /\ Forall (has_shape2 N C) T.

Section Over.

Context {F : Type} (A : arith F).

(** The eight running sums after one more group of eight entries. *)
Fixpoint zip_add (r a : list F) : list F :=
  match r, a with
  | x :: r', y :: a' => add A x y :: zip_add r' a'
  | _, _ => r
  end.

(** The running sums [r] after all the full groups of eight of [a], and the
    entries of [a] left over. *)
Fixpoint add_blocks (fuel : nat) (r a : list F) : list F * list F :=
  match fuel with
  | O => (r, a)
  | S fuel' =>
      if (8 <=? length a)%nat
      then add_blocks fuel' (zip_add r (firstn 8 a)) (skipn 8 a)
      else (r, a)
  end.

Definition tree8 (r : list F) : F :=
  match r with
  | [r0; r1; r2; r3; r4; r5; r6; r7] =>
      add A (add A (add A r0 r1) (add A r2 r3))
            (add A (add A r4 r5) (add A r6 r7))
  | _ => zero A
  end.

(** numpy's pairwise sum of the entries [a]; [fuel] bounds the depth of the
    halving and [length a] is enough ([pairwise_sum_fuel]). *)
Fixpoint pairwise_sum (fuel : nat) (a : list F) : F :=
  let n := length a in
  if (n <? 8)%nat then fold_left (add A) a (zero A)
  else if (n <=? 128)%nat then
    let (r, rest) := add_blocks n (firstn 8 a) (skipn 8 a) in
    fold_left (add A) rest (tree8 r)
  else
    match fuel with
    | O => zero A
    | S fuel' =>
        let n2 := (n / 2 - (n / 2) mod 8)%nat in
        add A (pairwise_sum fuel' (firstn n2 a))
              (pairwise_sum fuel' (skipn n2 a))
    end.

(** [np.sum] of a 1-d array, and of a 2-d array through its entries in row
    order. *)
Definition sum1 (a : list F) : F :=
  add A (zero A) (pairwise_sum (length a) a).

Definition sum2 (P : list (list F)) : F := sum1 (concat P).

Definition square1 (v : list F) : list F := map (fun x => mul A x x) v.
Definition square2 (P : list (list F)) : list (list F) := map square1 P.

Definition shape1 (P : list (list F)) : nat :=
  match P with
  | [] => 0%nat
  | r :: _ => length r
  end.

Definition column (j : nat) (P : list (list F)) : list F :=
  map (fun r => nth j r (zero A)) P.

(** [np.mean(P, axis=0)] *)
Definition mean_axis0 (P : list (list F)) : list F :=
  map (fun j => div A (fold_left (add A) (column j P) (zero A))
                      (of_count A (length P)))
      (seq 0 (shape1 P)).

(** Cell 15. *)
Definition uncertainty (predictions : list (list F)) : F :=
  sub A (div A (sum2 (square2 predictions)) (of_count A (length predictions)))
        (sum1 (square1 (mean_axis0 predictions))).

(** [T[:, i]] *)
Definition slice_image (T : list (list (list F))) (i : nat) : list (list F) :=
  map (fun pass => nth i pass []) T.

(** Cell 16, on the two tensors. *)
Definition reduce_image (T Tadv : list (list (list F)))
    (acc : list F * list F) (i : nat) : list F * list F :=
  let (res, res_adv) := acc in
  (setitem res i (uncertainty (slice_image T i)),
   setitem res_adv i (uncertainty (slice_image Tadv i))).

Definition uncertainty_loop (n : nat) (T Tadv : list (list (list F)))
    : list F * list F :=
  fold_left (reduce_image T Tadv) (seq 0 n)
    (repeat (zero A) n, repeat (zero A) n).

End Over.

(** IEEE 754 binary64, rounding to nearest even. *)
Definition binary64 : arith PrimFloat.float :=
  mkArith PrimFloat.float PrimFloat.zero PrimFloat.add PrimFloat.sub
    PrimFloat.mul PrimFloat.div
    (fun n => PrimFloat.of_uint63 (Uint63.of_Z (Z.of_nat n))).

(** Exact arithmetic. *)
Definition rational : arith Q := mkArith Q 0 Qplus Qminus Qmult Qdiv of_nat.

(** The rational that a finite binary64 number is. *)
Definition exact (x : PrimFloat.float) : option Q :=
  match FloatOps.Prim2SF x with
  | SpecFloat.S754_zero _ => Some 0
  | SpecFloat.S754_finite s m e =>
      let v := if (0 <=? e)%Z
               then inject_Z (Z.pos m * 2 ^ e)
               else Z.pos m # Z.to_pos (2 ^ (- e)) in
      Some (Qred (if s then - v else v))
  | _ => None
  end.

Fixpoint exact1 (v : list PrimFloat.float) : option vector :=
  match v with
  | [] => Some []
  | x :: v' =>
      match exact x, exact1 v' with
      | Some q, Some w => Some (q :: w)
      | _, _ => None
      end
  end.

Fixpoint exact2 (P : list (list PrimFloat.float)) : option array2 :=
  match P with
  | [] => Some []
  | r :: P' =>
      match exact1 r, exact2 P' with
      | Some v, Some W => Some (v :: W)
      | _, _ => None
      end
  end.

End Num.

(** Cell 15 as the notebook computes it. *)
Definition uncertainty64 (predictions : list (list PrimFloat.float))
    : PrimFloat.float :=
  Num.uncertainty Num.binary64 predictions.

(** ** Predictions on which the rounding shows

    Every row below holds binary64 numbers that add up to exactly 1, apart
    from [tenths], whose row is the binary64 neighbours of 0.1, 0.2 and
    0.7. *)

Module Rounding.

(** Three passes, all [5/2^29, 1 - 5/2^29]. *)
Definition identical_rows : list (list float) :=
  [[0x1.4p-27; 0x1.ffffffbp-1]; [0x1.4p-27; 0x1.ffffffbp-1];
   [0x1.4p-27; 0x1.ffffffbp-1]]%float.

(** Two passes, [2^-26, 1 - 2^-26] and [2^-27, 1 - 2^-27]. *)
Definition close_rows : list (list float) :=
  [[0x1p-26; 0x1.ffffff8p-1]; [0x1p-27; 0x1.ffffffcp-1]]%float.








End Rounding.

(** Closes goals about explicit rationals and explicit lists. *)
Ltac concrete :=
  repeat first
    [ split
    | constructor
    | reflexivity
    | progress (vm_compute; try discriminate) ].

(** ** Sums of rationals *)

Section Sums.

Lemma of_nat_S (n : nat) : of_nat (S n) == of_nat n + 1.
Proof.
  unfold of_nat. rewrite Nat2Z.inj_succ. unfold Z.succ.
  rewrite inject_Z_plus. reflexivity.
Qed.

Lemma of_nat_nonneg (n : nat) : 0 <= of_nat n.
Proof.
  induction n as [|n IH]; [vm_compute; discriminate|].
  rewrite of_nat_S. lra.
Qed.

Lemma of_nat_pos (n : nat) : (1 <= n)%nat -> 0 < of_nat n.
Proof.
  destruct n as [|n]; [lia|]. intros _.
  rewrite of_nat_S. pose proof (of_nat_nonneg n). lra.
Qed.

Lemma sum1_cons (x : Q) (v : vector) : sum1 (x :: v) = x + sum1 v.
Proof. reflexivity. Qed.

Lemma sum1_app (u v : vector) : sum1 (u ++ v) == sum1 u + sum1 v.
Proof.
  induction u as [|x u IH]; simpl; [ring|].
  rewrite IH. ring.
Qed.

Lemma sum1_map_ext {A : Type} (f g : A -> Q) (l : list A) :
  (forall a, In a l -> f a == g a) -> sum1 (map f l) == sum1 (map g l).
Proof.
  induction l as [|a l IH]; intros H; simpl; [reflexivity|].
  rewrite (H a (or_introl eq_refl)), IH; [reflexivity|].
  intros b Hb. apply H. now right.
Qed.

Lemma sum1_map_plus {A : Type} (f g : A -> Q) (l : list A) :
  sum1 (map (fun a => f a + g a) l) == sum1 (map f l) + sum1 (map g l).
Proof.
  induction l as [|a l IH]; simpl; [ring|]. rewrite IH. ring.
Qed.

Lemma sum1_map_minus {A : Type} (f g : A -> Q) (l : list A) :
  sum1 (map (fun a => f a - g a) l) == sum1 (map f l) - sum1 (map g l).
Proof.
  induction l as [|a l IH]; simpl; [ring|]. rewrite IH. ring.
Qed.

Lemma sum1_map_scale {A : Type} (c : Q) (f : A -> Q) (l : list A) :
  sum1 (map (fun a => f a * c) l) == sum1 (map f l) * c.
Proof.
  induction l as [|a l IH]; simpl; [ring|]. rewrite IH. ring.
Qed.

Lemma sum1_map_zero {A : Type} (l : list A) :
  sum1 (map (fun _ => 0) l) == 0.
Proof. induction l as [|a l IH]; simpl; [reflexivity|]. rewrite IH. ring. Qed.

Lemma sum1_nonneg (v : vector) : Forall (fun x => 0 <= x) v -> 0 <= sum1 v.
Proof.
  induction 1 as [|x v Hx _ IH]; simpl; lra.
Qed.

Lemma sum1_nonneg_zero (v : vector) :
  Forall (fun x => 0 <= x) v -> sum1 v == 0 -> Forall (fun x => x == 0) v.
Proof.
  induction 1 as [|x v Hx Hv IH]; intros H0; constructor;
    simpl in H0; pose proof (sum1_nonneg v Hv); [lra|].
  apply IH. lra.
Qed.

Lemma sum1_all_zero (v : vector) :
  Forall (fun x => x == 0) v -> sum1 v == 0.
Proof.
  induction 1 as [|x v Hx _ IH]; simpl; [reflexivity|]. rewrite Hx, IH. ring.
Qed.

Lemma sum1_vec_eq (u v : vector) : Forall2 Qeq u v -> sum1 u == sum1 v.
Proof.
  induction 1 as [|x y u v Hxy _ IH]; simpl; [reflexivity|].
  rewrite Hxy, IH. reflexivity.
Qed.


(** A row of length [C] is summed through its indices. *)
Lemma sum1_by_index (f : Q -> Q) (r : vector) :
  sum1 (map f r) == sum1 (map (fun j => f (nth j r 0)) (seq 0 (length r))).
Proof.
  induction r as [|x r IH]; simpl; [reflexivity|].
  rewrite <- seq_shift, map_map. simpl. rewrite IH. reflexivity.
Qed.

(** Sum of squared deviations from any centre [c]. *)
Lemma sum1_sq_shift (c : Q) (xs : vector) :
  sum1 (map (fun x => (x - c) * (x - c)) xs)
  == sum1 (square1 xs) - 2 * c * sum1 xs + of_nat (length xs) * (c * c).
Proof.
  induction xs as [|x xs IH].
  - cbn [map sum1 fold_right square1 length]. change (of_nat 0) with 0. ring.
  - cbn [map sum1 fold_right square1 length]. rewrite of_nat_S.
    unfold sum1, square1 in IH. rewrite IH. ring.
Qed.

End Sums.

(** ** Shapes, columns and the variance form of [uncertainty] *)

Section Shapes.

Lemma has_shape2_shape1 (L C : nat) (P : array2) :
  has_shape2 L C P -> (1 <= L)%nat -> shape1 P = C.
Proof.
  intros [HL HC] H1. destruct P as [|r P]; simpl in *; [lia|].
  now inversion HC.
Qed.

Lemma has_shape2_tail (L C : nat) (r : vector) (P : array2) :
  has_shape2 (S L) C (r :: P) -> length r = C /\ has_shape2 L C P.
Proof.
  intros [HL HC]. inversion HC; subst. simpl in HL.
  repeat split; [lia | assumption].
Qed.

Lemma has_shape2_length (L C : nat) (P : array2) :
  has_shape2 L C P -> length P = L.
Proof. now intros [HL _]. Qed.

Lemma has_shape2_In (L C : nat) (P : array2) (r : vector) :
  has_shape2 L C P -> In r P -> length r = C.
Proof.
  intros [_ HC] Hr. rewrite Forall_forall in HC. now apply HC.
Qed.

Lemma column_length (j : nat) (P : array2) : length (column j P) = length P.
Proof. apply length_map. Qed.


(** The sum over all the entries, taken column by column. *)
Lemma sum2_by_columns (f : Q -> Q) (L C : nat) (P : array2) :
  has_shape2 L C P ->
  sum2 (map (map f) P)
  == sum1 (map (fun j => sum1 (map f (column j P))) (seq 0 C)).
Proof.
  revert L. induction P as [|r P IH]; intros L HP.
  - symmetry. apply (sum1_map_zero (seq 0 C)).
  - destruct L as [|L]; [destruct HP as [HL _]; discriminate|].
    apply has_shape2_tail in HP. destruct HP as [Hr HP].
    unfold sum2 in *. cbn [map sum1 fold_right column].
    rewrite (sum1_map_plus (fun j => f (nth j r 0))
               (fun j => sum1 (map f (map (fun r0 => nth j r0 0) P)))).
    rewrite <- Hr at 1. rewrite <- sum1_by_index.
    unfold sum1, column in IH. rewrite (IH L HP). reflexivity.
Qed.

(** Mean of the squares minus square of the mean, for one sample. *)
Lemma variance_expand (xs : vector) :
  (1 <= length xs)%nat ->
  Spec.variance xs
  == sum1 (square1 xs) / of_nat (length xs)
     - (sum1 xs / of_nat (length xs)) * (sum1 xs / of_nat (length xs)).
Proof.
  intros Hn. unfold Spec.variance. rewrite sum1_sq_shift.
  pose proof (of_nat_pos _ Hn) as Hpos.
  field. intros H0. rewrite H0 in Hpos. lra.
Qed.

Lemma variance_nonneg (xs : vector) :
  (1 <= length xs)%nat -> 0 <= Spec.variance xs.
Proof.
  intros Hn. unfold Spec.variance. cbv zeta.
  pose proof (of_nat_pos _ Hn) as Hpos.
  apply Qle_shift_div_l; [assumption|].
  setoid_replace (0 * of_nat (length xs)) with 0 by ring.
  apply sum1_nonneg. rewrite Forall_map, Forall_forall. intros x _.
  cbv beta. generalize (x - sum1 xs / of_nat (length xs)). intros d. nra.
Qed.

Lemma uncertainty_class_variances (L C : nat) (P : array2) :
  has_shape2 L C P -> (1 <= L)%nat ->
  uncertainty P == Spec.class_variances P.
Proof.
  intros HP H1. unfold uncertainty, Spec.class_variances, mean_axis0.
  rewrite (has_shape2_shape1 L C P HP H1).
  unfold shape0. rewrite (has_shape2_length L C P HP).
  rewrite (sum1_map_ext (fun j => Spec.variance (column j P))
    (fun j => sum1 (square1 (column j P)) * / of_nat L
              - (sum1 (column j P) / of_nat L)
                * (sum1 (column j P) / of_nat L))).
  - rewrite (sum1_map_minus
      (fun j => sum1 (square1 (column j P)) * / of_nat L)
      (fun j => (sum1 (column j P) / of_nat L)
                * (sum1 (column j P) / of_nat L))).
    rewrite (sum1_map_scale (/ of_nat L)
      (fun j => sum1 (square1 (column j P)))).
    unfold square2, square1 at 1.
    rewrite (sum2_by_columns (fun x => x * x) L C P HP).
    unfold square1 at 1. rewrite map_map. reflexivity.
  - intros j _. rewrite variance_expand.
    + rewrite column_length, (has_shape2_length L C P HP). reflexivity.
    + rewrite column_length, (has_shape2_length L C P HP). exact H1.
Qed.

End Shapes.

(** ** Dispersion is zero exactly on identical vectors *)

Section Identical.

Lemma vec_eq_nth (u v : vector) (j : nat) :
  Spec.vec_eq u v -> nth j u 0 == nth j v 0.
Proof.
  intros H. revert j.
  induction H as [|x y u v Hxy _ IH]; intros [|j]; simpl;
    try reflexivity; [exact Hxy | apply IH].
Qed.

Lemma vec_eq_of_nth (u v : vector) :
  length u = length v ->
  (forall j, (j < length u)%nat -> nth j u 0 == nth j v 0) ->
  Spec.vec_eq u v.
Proof.
  revert v. induction u as [|x u IH]; intros [|y v] Hlen H;
    try discriminate; constructor.
  - apply (H 0%nat). simpl. lia.
  - apply IH; [simpl in Hlen; lia|].
    intros j Hj. apply (H (S j)). simpl. lia.
Qed.

Lemma vec_eq_refl (u : vector) : Spec.vec_eq u u.
Proof. induction u; constructor; [reflexivity | assumption]. Qed.

Lemma sum1_const (c : Q) (xs : vector) :
  Forall (fun x => x == c) xs -> sum1 xs == of_nat (length xs) * c.
Proof.
  induction 1 as [|x xs Hx _ IH].
  - cbn [sum1 fold_right length]. change (of_nat 0) with 0. ring.
  - cbn [sum1 fold_right length]. rewrite of_nat_S.
    unfold sum1 in IH. rewrite IH, Hx. ring.
Qed.

Lemma variance_const (c : Q) (xs : vector) :
  (1 <= length xs)%nat -> Forall (fun x => x == c) xs ->
  Spec.variance xs == 0.
Proof.
  intros Hn Hc. unfold Spec.variance. cbv zeta.
  pose proof (of_nat_pos _ Hn) as Hpos.
  assert (Hm : sum1 xs / of_nat (length xs) == c).
  { rewrite (sum1_const c xs Hc). field. intros H0. rewrite H0 in Hpos. lra. }
  rewrite sum1_all_zero.
  - field. intros H0. rewrite H0 in Hpos. lra.
  - rewrite Forall_map. rewrite Forall_forall in Hc |- *.
    intros x Hx. cbv beta. rewrite Hm, (Hc x Hx). ring.
Qed.

Lemma variance_zero_const (xs : vector) :
  (1 <= length xs)%nat -> Spec.variance xs == 0 ->
  Forall (fun x => x == sum1 xs / of_nat (length xs)) xs.
Proof.
  intros Hn H0. unfold Spec.variance in H0. cbv zeta in H0.
  pose proof (of_nat_pos _ Hn) as Hpos.
  set (m := sum1 xs / of_nat (length xs)) in *.
  set (D := sum1 (map (fun x => (x - m) * (x - m)) xs)) in *.
  assert (HD : D == 0).
  { setoid_replace D with (D / of_nat (length xs) * of_nat (length xs)).
    - rewrite H0. ring.
    - field. intros E. rewrite E in Hpos. lra. }
  assert (Hz : Forall (fun y => y == 0) (map (fun x => (x - m) * (x - m)) xs)).
  { apply sum1_nonneg_zero; [|exact HD].
    rewrite Forall_map, Forall_forall. intros x _. cbv beta.
    generalize (x - m). intros d. nra. }
  rewrite Forall_map in Hz. rewrite Forall_forall in Hz |- *.
  intros x Hx. specialize (Hz x Hx). cbv beta in Hz.
  apply Qmult_integral in Hz. destruct Hz; lra.
Qed.

Lemma class_variances_nonneg (L C : nat) (P : array2) :
  has_shape2 L C P -> (1 <= L)%nat -> 0 <= Spec.class_variances P.
Proof.
  intros HP H1. unfold Spec.class_variances.
  apply sum1_nonneg. rewrite Forall_map, Forall_forall. intros j _.
  apply variance_nonneg.
  rewrite column_length, (has_shape2_length L C P HP). exact H1.
Qed.

Lemma uncertainty_identical (L C : nat) (P : array2) :
  has_shape2 L C P -> (1 <= L)%nat ->
  Spec.all_identical P -> uncertainty P == 0.
Proof.
  intros HP H1 Hid. rewrite (uncertainty_class_variances L C P HP H1).
  unfold Spec.class_variances.
  rewrite (sum1_map_ext _ (fun _ => 0)); [apply sum1_map_zero|].
  intros j _. destruct P as [|p0 P]; [destruct HP; simpl in *; lia|].
  apply (variance_const (nth j p0 0)).
  - rewrite column_length. simpl. lia.
  - unfold column. rewrite Forall_map, Forall_forall. intros r Hr.
    apply vec_eq_nth. apply Hid; [exact Hr | now left].
Qed.

Lemma uncertainty_zero_identical (L C : nat) (P : array2) :
  has_shape2 L C P -> (1 <= L)%nat ->
  uncertainty P == 0 -> Spec.all_identical P.
Proof.
  intros HP H1 H0. rewrite (uncertainty_class_variances L C P HP H1) in H0.
  unfold Spec.class_variances in H0.
  rewrite (has_shape2_shape1 L C P HP H1) in H0.
  assert (Hlen : forall j, (1 <= length (column j P))%nat).
  { intros j. rewrite column_length, (has_shape2_length L C P HP). exact H1. }
  apply sum1_nonneg_zero in H0.
  2:{ rewrite Forall_map, Forall_forall. intros j _.
      apply variance_nonneg, Hlen. }
  rewrite Forall_map, Forall_forall in H0.
  intros p q Hp Hq. apply vec_eq_of_nth.
  - rewrite (has_shape2_In L C P p HP Hp), (has_shape2_In L C P q HP Hq).
    reflexivity.
  - intros j Hj. rewrite (has_shape2_In L C P p HP Hp) in Hj.
    assert (Hin : In j (seq 0 C)) by (apply in_seq; lia).
    pose proof (variance_zero_const _ (Hlen j) (H0 j Hin)) as Hc.
    rewrite Forall_forall in Hc.
    rewrite (Hc (nth j p 0)), (Hc (nth j q 0)); [reflexivity | |];
      unfold column; apply in_map_iff; eexists; split; eauto.
Qed.

Lemma has_shape2_repeat (n : nat) (v : vector) :
  has_shape2 n (length v) (repeat v n).
Proof.
  split; [apply repeat_length|].
  apply Forall_forall. intros r Hr. apply repeat_spec in Hr. now subst.
Qed.

Lemma uncertainty_repeat (n : nat) (v : vector) :
  (1 <= n)%nat -> uncertainty (repeat v n) == 0.
Proof.
  intros Hn.
  apply (uncertainty_identical n (length v)); [apply has_shape2_repeat | exact Hn |].
  intros p q Hp Hq. apply repeat_spec in Hp, Hq. subst. apply vec_eq_refl.
Qed.

Lemma probability_vectors_shape (L C : nat) (P : array2) :
  length P = L -> Forall (Spec.probability_vector C) P -> has_shape2 L C P.
Proof.
  intros HL HP. split; [exact HL|].
  eapply Forall_impl; [|exact HP]. now intros r [Hr _].
Qed.

End Identical.

(** ** Reordering the passes *)

Section Reordering.





End Reordering.

(** ** The range of the score on probability vectors *)

Section Range.










End Range.

(** ** The closed form of the specification *)

Section ClosedForm.






End ClosedForm.

(** ** The loops of cells 14 and 16 *)

Section Loops.

Lemma setitem_length {A : Type} (a : list A) (i : nat) (v : A) :
  length (setitem a i v) = length a.
Proof.
  revert i. induction a as [|x a IH]; intros [|i]; simpl; auto.
Qed.

Lemma setitem_app {A : Type} (pre rest : list A) (x v : A) :
  setitem (pre ++ x :: rest) (length pre) v = (pre ++ [v]) ++ rest.
Proof.
  induction pre as [|y pre IH]; simpl; [reflexivity|]. now rewrite IH.
Qed.

(** A loop that assigns [f i] to slot [i] for every [i] of the range
    fills the array with the values of [f]. *)
Lemma fill_range {A : Type} (f : nat -> A) (n : nat) :
  forall (k : nat) (pre rest : list A),
    length pre = k -> length rest = n ->
    fold_left (fun a i => setitem a i (f i)) (seq k n) (pre ++ rest)
    = pre ++ map f (seq k n).
Proof.
  induction n as [|n IH]; intros k pre rest Hk Hn.
  - destruct rest; [reflexivity | discriminate].
  - destruct rest as [|x rest]; [discriminate|].
    subst k. cbn [seq fold_left map]. rewrite setitem_app.
    rewrite (IH (S (length pre)) (pre ++ [f (length pre)]) rest).
    + now rewrite <- app_assoc.
    + rewrite length_app. simpl. lia.
    + simpl in Hn. lia.
Qed.

Lemma reduce_image_fold (m : matrices) (l : list nat) :
  forall acc : vector * vector,
    fold_left (reduce_image m) l acc
    = (fold_left (fun a i =>
         setitem a i (uncertainty (slice_image (predictions_matrix m) i)))
         l (fst acc),
       fold_left (fun a i =>
         setitem a i (uncertainty (slice_image (predictions_matrix_adv m) i)))
         l (snd acc)).
Proof.
  induction l as [|i l IH]; intros [r ra]; simpl; [reflexivity|].
  now rewrite IH.
Qed.

Lemma uncertainty_loop_map (n : nat) (m : matrices) :
  uncertainty_loop n m
  = (map (fun i => uncertainty (slice_image (predictions_matrix m) i))
       (seq 0 n),
     map (fun i => uncertainty (slice_image (predictions_matrix_adv m) i))
       (seq 0 n)).
Proof.
  unfold uncertainty_loop. rewrite reduce_image_fold. cbn [fst snd].
  f_equal; apply (fill_range _ n 0 [] (zeros1 n));
    solve [reflexivity | apply repeat_length].
Qed.

Lemma uncertainty_results_nth (n : nat) (m : matrices) (i : nat) :
  (i < n)%nat ->
  nth i (uncertainty_results n m) 0
  = uncertainty (slice_image (predictions_matrix m) i)
  /\ nth i (uncertainty_results_adv n m) 0
     = uncertainty (slice_image (predictions_matrix_adv m) i).
Proof.
  intros Hi. unfold uncertainty_results, uncertainty_results_adv.
  rewrite uncertainty_loop_map. cbn [fst snd].
  split.
  - rewrite (nth_indep _ 0
      (uncertainty (slice_image (predictions_matrix m) 0)))
      by (now rewrite length_map, length_seq).
    rewrite (map_nth (fun i =>
      uncertainty (slice_image (predictions_matrix m) i))).
    now rewrite seq_nth.
  - rewrite (nth_indep _ 0
      (uncertainty (slice_image (predictions_matrix_adv m) 0)))
      by (now rewrite length_map, length_seq).
    rewrite (map_nth (fun i =>
      uncertainty (slice_image (predictions_matrix_adv m) i))).
    now rewrite seq_nth.
Qed.

Lemma uncertainty_loop_length (n : nat) (m : matrices) :
  length (uncertainty_results n m) = n
  /\ length (uncertainty_results_adv n m) = n.
Proof.
  unfold uncertainty_results, uncertainty_results_adv.
  rewrite uncertainty_loop_map. cbn [fst snd].
  now rewrite !length_map, !length_seq.
Qed.


Lemma slice_image_perm (T T' : array3) (i : nat) :
  Permutation T T' -> Permutation (slice_image T i) (slice_image T' i).
Proof. apply Permutation_map. Qed.


End Loops.

(** ** The sampling loop and the session *)

Section Sampling.

Context {image rng : Type}.
Variable forward : rng -> list image -> array2 * rng.

Lemma model_predict_calls (x : list image) (s : session rng) :
  predict_calls (snd (model_predict forward x s)) = S (predict_calls s).
Proof. unfold model_predict. now destruct (forward (rng_state s) x). Qed.

Lemma sample_pass_calls (x xadv : list image) (acc : matrices * session rng)
    (i : nat) :
  predict_calls (snd (sample_pass forward x xadv acc i))
  = (predict_calls (snd acc) + 2)%nat.
Proof.
  destruct acc as [m s]. unfold sample_pass.
  pose proof (model_predict_calls x s) as H1.
  destruct (model_predict forward x s) as [p s1].
  pose proof (model_predict_calls xadv s1) as H2.
  destruct (model_predict forward xadv s1) as [pa s2].
  simpl in *. lia.
Qed.

Lemma sample_fold_calls (x xadv : list image) (l : list nat) :
  forall acc : matrices * session rng,
    predict_calls (snd (fold_left (sample_pass forward x xadv) l acc))
    = (predict_calls (snd acc) + 2 * length l)%nat.
Proof.
  induction l as [|i l IH]; intros acc; cbn [fold_left length]; [lia|].
  rewrite IH, sample_pass_calls. lia.
Qed.

Lemma build_matrices_calls (L C : nat) (d : datasets image)
    (s : session rng) :
  predict_calls (snd (build_matrices forward L C d s))
  = (predict_calls s + 2 * L)%nat.
Proof.
  unfold build_matrices. rewrite sample_fold_calls, length_seq.
  reflexivity.
Qed.

Lemma setitem_Forall {A : Type} (Q0 : A -> Prop) (a : list A) (i : nat)
    (v : A) :
  Forall Q0 a -> Q0 v -> Forall Q0 (setitem a i v).
Proof.
  intros Ha Hv. revert i.
  induction Ha as [|x a Hx Ha IH]; intros [|i]; simpl; auto.
Qed.

Lemma zeros3_shape (L N C : nat) : has_shape3 L N C (zeros3 L N C).
Proof.
  split; [apply repeat_length|].
  apply Forall_forall. intros pass Hp. apply repeat_spec in Hp. subst.
  split; [apply repeat_length|].
  apply Forall_forall. intros r Hr. apply repeat_spec in Hr. subst.
  apply repeat_length.
Qed.

Lemma sample_fold_shape (L N C : nat) (x xadv : list image)
    (l : list nat) :
  forward_shape forward C -> length x = N -> length xadv = N ->
  forall acc : matrices * session rng,
    has_shape3 L N C (predictions_matrix (fst acc)) ->
    has_shape3 L N C (predictions_matrix_adv (fst acc)) ->
    let m := fst (fold_left (sample_pass forward x xadv) l acc) in
    has_shape3 L N C (predictions_matrix m)
    /\ has_shape3 L N C (predictions_matrix_adv m).
Proof.
  intros Hf Hx Hxa. induction l as [|i l IH]; intros [m s] H1 H2;
    cbn [fold_left]; [now split|].
  apply IH; unfold sample_pass, model_predict.
  - pose proof (Hf (rng_state s) x) as Hp.
    destruct (forward (rng_state s) x) as [p g1]. cbn [rng_state].
    destruct (forward g1 xadv) as [pa g2]. cbn [fst predictions_matrix] in *.
    destruct H1 as [HL HT]. split; [now rewrite setitem_length|].
    apply setitem_Forall; [exact HT | now rewrite <- Hx].
  - destruct (forward (rng_state s) x) as [p g1]. cbn [rng_state].
    pose proof (Hf g1 xadv) as Hp.
    destruct (forward g1 xadv) as [pa g2].
    cbn [fst predictions_matrix_adv] in *.
    destruct H2 as [HL HT]. split; [now rewrite setitem_length|].
    apply setitem_Forall; [exact HT | now rewrite <- Hxa].
Qed.

(** Under the model's contract both tensors of cell 14 have the shape
    they were allocated with. *)
Lemma build_matrices_shape (L C : nat) (d : datasets image)
    (s : session rng) :
  forward_shape forward C ->
  length (x_images d) = num_images d ->
  length (x_images_adv d) = num_images d ->
  let m := fst (build_matrices forward L C d s) in
  has_shape3 L (num_images d) C (predictions_matrix m)
  /\ has_shape3 L (num_images d) C (predictions_matrix_adv m).
Proof.
  intros Hf Hx Hxa. unfold build_matrices.
  apply (sample_fold_shape L (num_images d) C); auto; apply zeros3_shape.
Qed.

Lemma build_matrices_single (C : nat) (d : datasets image)
    (s : session rng) :
  exists pass pass_adv,
    fst (build_matrices forward 1 C d s) = mkMatrices [pass] [pass_adv].
Proof.
  unfold build_matrices, sample_pass. cbn [seq fold_left].
  destruct (model_predict forward (x_images d) s) as [p s1].
  destruct (model_predict forward (x_images_adv d) s1) as [pa s2].
  now exists p, pa.
Qed.

End Sampling.

(** ** Evaluation on small inputs *)

Example uncertainty_two_opposite : uncertainty [[1; 0]; [0; 1]] == 1 # 2.
Proof. vm_compute. reflexivity. Qed.

Example uncertainty_magnitudes :
  uncertainty [[3 # 5; 2 # 5]; [9 # 10; 1 # 10]] == 9 # 200
  /\ uncertainty [[3 # 5; 2 # 5]; [7 # 10; 3 # 10]] == 1 # 200.
Proof. split; vm_compute; reflexivity. Qed.

Example same_rank_order_cases :
  Spec.same_rank_order [3 # 5; 2 # 5] [7 # 10; 3 # 10] = true
  /\ Spec.same_rank_order [3 # 5; 2 # 5] [2 # 5; 3 # 5] = false
  /\ Spec.same_rank_order [1 # 2; 1 # 2] [7 # 10; 3 # 10] = false.
Proof. repeat split. Qed.

Example demo_run_counts :
  num_images (fst (fst Demo.run)) = 2%nat
  /\ predict_calls (snd Demo.run) = 5%nat.
Proof. split; reflexivity. Qed.

Lemma demo_forward_shape : forward_shape Demo.forward 2.
Proof.
  intros g x. unfold Demo.forward. cbn [fst]. split.
  - apply length_map.
  - rewrite Forall_map, Forall_forall. intros a _.
    now destruct (g mod 3 =? 0)%nat.
Qed.

(** ** The properties of the specification *)

(** C6.  The score depends on the magnitudes of the probabilities and not
    only on the ranking of the classes: there are two families of
    probability vectors that rank the classes alike in every pass and have
    different scores. *)
Theorem uncertainty_not_scale_invariant :
  exists P P' : array2,
    Forall (Spec.probability_vector 2) P
    /\ Forall (Spec.probability_vector 2) P'
    /\ Spec.same_rank_orders P P' = true
    /\ ~ uncertainty P == uncertainty P'.
Proof.
  exists [[3 # 5; 2 # 5]; [9 # 10; 1 # 10]],
         [[3 # 5; 2 # 5]; [7 # 10; 3 # 10]].
  split; [concrete|]. split; [concrete|]. split; [reflexivity|].
  vm_compute. discriminate.
Qed.

Lemma single_pass_zero :
  (forall p : vector, uncertainty [p] == 0)
  /\ (forall (N : nat) (pass pass_adv : array2),
        Forall (fun u => u == 0)
          (uncertainty_results N (mkMatrices [pass] [pass_adv]))
        /\ Forall (fun u => u == 0)
             (uncertainty_results_adv N (mkMatrices [pass] [pass_adv]))).
Proof.
  assert (H : forall p : vector, uncertainty [p] == 0).
  { intros p. apply (uncertainty_repeat 1 p). lia. }
  split; [exact H|].
  intros N pass pass_adv.
  unfold uncertainty_results, uncertainty_results_adv.
  rewrite uncertainty_loop_map. cbn [fst snd].
  split; rewrite Forall_map, Forall_forall; intros i _; apply H.
Qed.

(** C9.  With a single pass the dispersion is zero: for one prediction
    vector, and so for every image when the tensors hold one pass. *)
Theorem single_pass_uncertainty_zero :
  (forall p : vector, uncertainty [p] == 0)
  /\ (forall (N : nat) (pass pass_adv : array2),
        Forall (fun u => u == 0)
          (uncertainty_results N (mkMatrices [pass] [pass_adv]))
        /\ Forall (fun u => u == 0)
             (uncertainty_results_adv N (mkMatrices [pass] [pass_adv]))).
Proof. exact single_pass_zero. Qed.

Lemma estimate_returns (image rng : Type)
    (forward : rng -> list image -> array2 * rng)
    (L C : nat) (d : datasets image) (s : session rng) :
  exists (res res_adv : vector) (s' : session rng),
    estimate forward L C d s = (Returned (res, res_adv), s')
    /\ predict_calls s' = (predict_calls s + 2 * L)%nat
    /\ length res = num_images d
    /\ length res_adv = num_images d.
Proof.
  unfold estimate.
  pose proof (build_matrices_calls forward L C d s) as Hc.
  destruct (build_matrices forward L C d s) as [m s'].
  exists (uncertainty_results (num_images d) m),
         (uncertainty_results_adv (num_images d) m), s'.
  destruct (uncertainty_loop_length (num_images d) m) as [H1 H2].
  repeat split; try assumption.
  unfold uncertainty_results, uncertainty_results_adv.
  now destruct (uncertainty_loop (num_images d) m).
Qed.

(** C3, as the specification states it, fails on the notebook.  With one
    pass (L = 1) over a batch of two images the estimator does not raise
    [InsufficientSamples]: it returns two scores after two predictor calls.
    With an empty batch (N = 0) and three passes it does not raise
    [EmptyBatch]: it returns after six predictor calls. *)
Lemma estimate_degenerate_inputs_return :
  (fst (estimate Demo.forward 1 2 Demo.data Demo.start)
     <> Raised InsufficientSamples
   /\ predict_calls (snd (estimate Demo.forward 1 2 Demo.data Demo.start))
      = 2%nat
   /\ exists a b a' b',
        fst (estimate Demo.forward 1 2 Demo.data Demo.start)
        = Returned ([a; b], [a'; b']))
  /\ (fst (estimate Demo.forward 3 2 (mkDatasets [] [] 0) Demo.start)
        <> Raised EmptyBatch
      /\ predict_calls
           (snd (estimate Demo.forward 3 2 (mkDatasets [] [] 0) Demo.start))
         = 6%nat).
Proof.
  split.
  - split; [vm_compute; discriminate|]. split; [reflexivity|].
    vm_compute. repeat eexists.
  - split; [vm_compute; discriminate | reflexivity].
Qed.

(** C3, amended.  The estimator (cells 14 and 16) validates neither L nor
    N and raises neither [InsufficientSamples] nor [EmptyBatch]: with a
    model that answers one row of C entries per image, for every L and every
    pair of batches of [num_images] images it returns one score per image
    for each batch after exactly L predictor calls per batch (2 L in all),
    also when L < 2 or when the batches are empty; with L = 1 every score
    it returns is 0. *)
Theorem estimate_never_validates (image rng : Type)
    (forward : rng -> list image -> array2 * rng)
    (L C : nat) (d : datasets image) (s : session rng) :
  forward_shape forward C ->
  length (x_images d) = num_images d ->
  length (x_images_adv d) = num_images d ->
  exists (res res_adv : vector) (s' : session rng),
    estimate forward L C d s = (Returned (res, res_adv), s')
    /\ predict_calls s' = (predict_calls s + 2 * L)%nat
    /\ length res = num_images d
    /\ length res_adv = num_images d
    /\ (L = 1%nat ->
        Forall (fun u => u == 0) res /\ Forall (fun u => u == 0) res_adv).
Proof.
  intros _ _ _.
  destruct (estimate_returns image rng forward L C d s)
    as (res & res_adv & s' & He & Hc & Hr & Hra).
  exists res, res_adv, s'. repeat split; try assumption.
  - subst L. unfold estimate in He.
    destruct (build_matrices_single forward C d s) as (p & pa & E).
    destruct (build_matrices forward 1 C d s) as [m s1]. cbn [fst] in E.
    subst m. injection He as E1 E2.
    destruct single_pass_zero as [_ H].
    destruct (H (num_images d) p pa) as [H1 _].
    unfold uncertainty_results in H1. now rewrite E1 in H1.
  - subst L. unfold estimate in He.
    destruct (build_matrices_single forward C d s) as (p & pa & E).
    destruct (build_matrices forward 1 C d s) as [m s1]. cbn [fst] in E.
    subst m. injection He as E1 E2.
    destruct single_pass_zero as [_ H].
    destruct (H (num_images d) p pa) as [_ H2].
    unfold uncertainty_results_adv in H2. now rewrite E1 in H2.
Qed.

Lemma estimate_never_validates_witness :
  forward_shape Demo.forward 2
  /\ exists (res res_adv : vector) (s' : session nat),
       estimate Demo.forward 1 2 Demo.data Demo.start
       = (Returned (res, res_adv), s')
       /\ predict_calls s' = (predict_calls Demo.start + 2 * 1)%nat
       /\ length res = num_images Demo.data
       /\ length res_adv = num_images Demo.data
       /\ (1%nat = 1%nat ->
           Forall (fun u => u == 0) res /\ Forall (fun u => u == 0) res_adv).
Proof.
  split; [exact demo_forward_shape|].
  apply (estimate_never_validates nat nat Demo.forward 1 2 Demo.data
           Demo.start demo_forward_shape); reflexivity.
Defined.

(** C7.  After the adversarial generation the notebook reads the number of
    images the generator returned ([x_images_adv.shape[0]]) and cuts the
    clean batch to it: the adversarial batch is the generator's output, both
    batches have that count, and so have the two sequences of scores. *)
Theorem num_images_reread (image rng : Type)
    (forward : rng -> list image -> array2 * rng)
    (generate_adversarial_data :
       list image -> array2 -> rng -> list image * rng)
    (requested L C : nat) (test_images : list image) (s : session rng)
    (d : datasets image) (r : outcome (vector * vector)) (s' : session rng) :
  forward_shape forward C ->
  (forall x p g,
     (length (fst (generate_adversarial_data x p g)) <= length x)%nat) ->
  notebook forward generate_adversarial_data requested L C test_images s
  = (d, r, s') ->
  let x0 := firstn requested test_images in
  let p0 := forward (rng_state s) x0 in
  x_images_adv d = fst (generate_adversarial_data x0 (fst p0) (snd p0))
  /\ num_images d = length (x_images_adv d)
  /\ length (x_images d) = num_images d
  /\ exists res res_adv : vector,
       r = Returned (res, res_adv)
       /\ length res = num_images d
       /\ length res_adv = num_images d.
Proof.
  intros _ Hgen Hrun x0 p0. unfold notebook in Hrun.
  destruct (get_test_data forward generate_adversarial_data requested
              test_images s) as [d1 s1] eqn:Hd.
  destruct (estimate_returns image rng forward L C d1 s1)
    as (res & res_adv & s2 & He & _ & Hr & Hra).
  rewrite He in Hrun. injection Hrun as Ed Er Es. subst d1 r s2.
  unfold get_test_data, model_predict in Hd. fold x0 in Hd. fold p0 in Hd.
  specialize (Hgen x0 (fst p0) (snd p0)).
  destruct p0 as [p g1]. cbn [rng_state fst snd] in *.
  destruct (generate_adversarial_data x0 p g1) as [adv g2].
  injection Hd as Ed _. subst d. cbn [x_images x_images_adv num_images fst] in *.
  assert (Hx0 : (length x0 <= length test_images)%nat)
    by (unfold x0; rewrite length_firstn; lia).
  repeat split.
  - unfold shape0. rewrite length_firstn. lia.
  - exists res, res_adv. now repeat split.
Qed.

Lemma num_images_reread_witness :
  forward_shape Demo.forward 2
  /\ (forall x p g,
     (length (fst (Demo.generate_adversarial_data x p g)) <= length x)%nat)
  /\ x_images_adv (fst (fst Demo.run)) = [10; 11]%nat
  /\ num_images (fst (fst Demo.run)) = 2%nat
  /\ length (x_images (fst (fst Demo.run))) = 2%nat
  /\ exists res res_adv : vector,
       snd (fst Demo.run) = Returned (res, res_adv)
       /\ length res = 2%nat
       /\ length res_adv = 2%nat.
Proof.
  assert (Hgen : forall x p g,
    (length (fst (Demo.generate_adversarial_data x p g)) <= length x)%nat).
  { intros x p g. unfold Demo.generate_adversarial_data. cbn [fst].
    rewrite length_firstn. lia. }
  split; [exact demo_forward_shape|]. split; [exact Hgen|].
  exact (num_images_reread nat nat Demo.forward
           Demo.generate_adversarial_data 3 2 2 Demo.test_images Demo.start
           (fst (fst Demo.run)) (snd (fst Demo.run)) (snd Demo.run)
           demo_forward_shape Hgen eq_refl).
Defined.

(** ** Further properties of the cells *)

Section Passes.

Context {image rng : Type}.
Variable forward : rng -> list image -> array2 * rng.
Variables x xadv : list image.

Lemma sample_pass_eq (m : matrices) (s : session rng) (i : nat) :
  sample_pass forward x xadv (m, s) i
  = (mkMatrices
       (setitem (predictions_matrix m) i (fst (forward (rng_state s) x)))
       (setitem (predictions_matrix_adv m) i
          (fst (forward (snd (forward (rng_state s) x)) xadv))),
     mkSession (snd (forward (snd (forward (rng_state s) x)) xadv))
       (S (S (predict_calls s)))).
Proof.
  unfold sample_pass, model_predict.
  destruct (forward (rng_state s) x) as [p g1]. cbn [rng_state fst snd].
  now destruct (forward g1 xadv) as [pa g2].
Qed.

Lemma passes_S (n : nat) (g : rng) :
  Aux.passes forward x xadv (S n) g
  = let g2 := snd (forward (snd (forward g x)) xadv) in
    (fst (forward g x) :: fst (fst (Aux.passes forward x xadv n g2)),
     fst (forward (snd (forward g x)) xadv)
       :: snd (fst (Aux.passes forward x xadv n g2)),
     snd (Aux.passes forward x xadv n g2)).
Proof.
  cbn [Aux.passes]. destruct (forward g x) as [p g1]. cbn [fst snd].
  destruct (forward g1 xadv) as [pa g2]. cbn [fst snd].
  now destruct (Aux.passes forward x xadv n g2) as [[ps pas] g'].
Qed.

Lemma setitem_at {A : Type} (pre rest : list A) (a v : A) (k : nat) :
  length pre = k -> setitem (pre ++ a :: rest) k v = (pre ++ [v]) ++ rest.
Proof. intros <-. apply setitem_app. Qed.

Lemma sample_fold_passes (n : nat) :
  forall (k : nat) (pre prea rest resta : array3) (s : session rng),
    length pre = k -> length prea = k ->
    length rest = n -> length resta = n ->
    fold_left (sample_pass forward x xadv) (seq k n)
      (mkMatrices (pre ++ rest) (prea ++ resta), s)
    = (mkMatrices
         (pre ++ fst (fst (Aux.passes forward x xadv n (rng_state s))))
         (prea ++ snd (fst (Aux.passes forward x xadv n (rng_state s)))),
       mkSession (snd (Aux.passes forward x xadv n (rng_state s)))
         (predict_calls s + 2 * n)).
Proof.
  induction n as [|n IH]; intros k pre prea rest resta s Hk Hka Hr Hra.
  - destruct rest; [|discriminate]. destruct resta; [|discriminate].
    destruct s as [g c]. cbn. now rewrite Nat.add_0_r.
  - destruct rest as [|r0 rest]; [discriminate|].
    destruct resta as [|a0 resta]; [discriminate|].
    cbn [seq fold_left]. rewrite sample_pass_eq.
    cbn [predictions_matrix predictions_matrix_adv].
    rewrite (setitem_at pre rest r0 _ k Hk).
    rewrite (setitem_at prea resta a0 _ k Hka).
    rewrite (IH (S k)).
    + cbn [rng_state predict_calls]. rewrite passes_S. cbv zeta.
      cbn [fst snd]. rewrite <- !app_assoc. cbn [app].
      f_equal. f_equal. lia.
    + rewrite length_app. simpl. lia.
    + rewrite length_app. simpl. lia.
    + simpl in Hr. lia.
    + simpl in Hra. lia.
Qed.

Lemma passes_length (n : nat) (g : rng) :
  length (fst (fst (Aux.passes forward x xadv n g))) = n
  /\ length (snd (fst (Aux.passes forward x xadv n g))) = n.
Proof.
  revert g. induction n as [|n IH]; intros g; [now split|].
  rewrite passes_S. cbv zeta. cbn [fst snd length].
  destruct (IH (snd (forward (snd (forward g x)) xadv))) as [H1 H2].
  now rewrite H1, H2.
Qed.

Lemma passes_Forall (Qx Qa : array2 -> Prop) (n : nat) (g : rng) :
  (forall g', Qx (fst (forward g' x))) ->
  (forall g', Qa (fst (forward g' xadv))) ->
  Forall Qx (fst (fst (Aux.passes forward x xadv n g)))
  /\ Forall Qa (snd (fst (Aux.passes forward x xadv n g))).
Proof.
  intros Hx Ha. revert g. induction n as [|n IH]; intros g.
  - split; constructor.
  - rewrite passes_S. cbv zeta. cbn [fst snd].
    destruct (IH (snd (forward (snd (forward g x)) xadv))) as [H1 H2].
    split; constructor; auto.
Qed.

End Passes.

Section Estimates.

Context {image rng : Type}.
Variable forward : rng -> list image -> array2 * rng.

Lemma build_matrices_passes (L C : nat) (d : datasets image)
    (s : session rng) :
  build_matrices forward L C d s
  = (mkMatrices
       (fst (fst (Aux.passes forward (x_images d) (x_images_adv d) L
                    (rng_state s))))
       (snd (fst (Aux.passes forward (x_images d) (x_images_adv d) L
                    (rng_state s)))),
     mkSession
       (snd (Aux.passes forward (x_images d) (x_images_adv d) L
               (rng_state s)))
       (predict_calls s + 2 * L)).
Proof.
  unfold build_matrices.
  apply (sample_fold_passes forward (x_images d) (x_images_adv d) L 0
           [] [] (zeros3 L (num_images d) C) (zeros3 L (num_images d) C) s);
    solve [reflexivity | apply repeat_length].
Qed.

Lemma normalize_pixel_bounds (p : Z) :
  (0 <= p <= 255)%Z -> within_bounds (normalize_pixel p).
Proof.
  intros [H0 H255]. unfold within_bounds, bounds, normalize_pixel.
  cbn [fst snd]. rewrite Zle_Qle in H0, H255.
  change (inject_Z 0) with 0 in H0. change (inject_Z 255) with 255 in H255.
  split.
  - apply Qle_shift_div_l; lra.
  - apply Qle_shift_div_r; lra.
Qed.

Lemma normalize_pixel_lt (p q : Z) :
  (p < q)%Z <-> normalize_pixel p < normalize_pixel q.
Proof.
  unfold normalize_pixel. rewrite Zlt_Qlt. split; intros H.
  - apply Qlt_shift_div_l; [lra|].
    setoid_replace (inject_Z p / 255 * 255) with (inject_Z p) by field.
    exact H.
  - setoid_replace (inject_Z p) with (inject_Z p / 255 * 255) by field.
    setoid_replace (inject_Z q) with (inject_Z q / 255 * 255) by field.
    lra.
Qed.

End Estimates.

(** ** Further properties, stated *)

(** X8.  After the loop of cell 14 no entry of the zero-initialised tensors
    is left: slot i of each tensor holds the prediction of iteration i, the
    calls alternate between the clean and the adversarial batch on one
    stream of generator states, 2 L calls are made, and with a model that
    answers one row of C entries per image both tensors have the shape
    (L, num_images, C) they were allocated with. *)
Theorem build_matrices_holds_passes (image rng : Type)
    (forward : rng -> list image -> array2 * rng)
    (L C : nat) (d : datasets image) (s : session rng) :
  forward_shape forward C ->
  length (x_images d) = num_images d ->
  length (x_images_adv d) = num_images d ->
  let run :=
    Aux.passes forward (x_images d) (x_images_adv d) L (rng_state s) in
  build_matrices forward L C d s
  = (mkMatrices (fst (fst run)) (snd (fst run)),
     mkSession (snd run) (predict_calls s + 2 * L))
  /\ has_shape3 L (num_images d) C (fst (fst run))
  /\ has_shape3 L (num_images d) C (snd (fst run)).
Proof.
  intros Hf Hx Ha run. split; [apply build_matrices_passes|].
  destruct (passes_length forward (x_images d) (x_images_adv d) L
              (rng_state s)) as [L1 L2].
  destruct (passes_Forall forward (x_images d) (x_images_adv d)
              (has_shape2 (num_images d) C) (has_shape2 (num_images d) C)
              L (rng_state s)) as [F1 F2].
  - intros g. rewrite <- Hx. apply Hf.
  - intros g. rewrite <- Ha. apply Hf.
  - split; split; assumption.
Qed.

Lemma build_matrices_holds_passes_witness :
  forward_shape Demo.forward 2
  /\ build_matrices Demo.forward 2 2 Demo.data Demo.start
     = (mkMatrices [[[1; 0]; [1; 0]]; [[1 # 4; 3 # 4]; [1 # 4; 3 # 4]]]
                   [[[1 # 4; 3 # 4]; [1 # 4; 3 # 4]]; [[1; 0]; [1; 0]]],
        mkSession 4%nat 4%nat).
Proof.
  split; [exact demo_forward_shape|].
  exact (proj1 (build_matrices_holds_passes nat nat Demo.forward 2 2
                  Demo.data Demo.start demo_forward_shape
                  eq_refl eq_refl)).
Defined.

(** X11.  Cells 9 to 16 together: when the generator returns at most as
    many images as it was given, the final count is at most the requested
    count and at most the size of the test set, the clean batch is the
    head of the test set of that length (whichever images the generator
    kept), and the notebook calls [model.predict] once for the generator
    and twice per pass, 1 + 2 L times in all. *)
Theorem notebook_batches_and_calls (image rng : Type)
    (forward : rng -> list image -> array2 * rng)
    (generate_adversarial_data :
       list image -> array2 -> rng -> list image * rng)
    (requested L C : nat) (test_images : list image) (s : session rng)
    (d : datasets image) (r : outcome (vector * vector)) (s' : session rng) :
  forward_shape forward C ->
  (forall x p g,
     (length (fst (generate_adversarial_data x p g)) <= length x)%nat) ->
  notebook forward generate_adversarial_data requested L C test_images s
  = (d, r, s') ->
  (num_images d <= requested)%nat
  /\ (num_images d <= length test_images)%nat
  /\ x_images d = firstn (num_images d) test_images
  /\ predict_calls s' = (predict_calls s + 1 + 2 * L)%nat.
Proof.
  intros _ Hgen Hrun. unfold notebook in Hrun.
  destruct (get_test_data forward generate_adversarial_data requested
              test_images s) as [d1 s1] eqn:Hd.
  destruct (estimate_returns image rng forward L C d1 s1)
    as (res & res_adv & s2 & He & Hc & _ & _).
  rewrite He in Hrun. injection Hrun as Ed Er Es. subst d1 r s2.
  unfold get_test_data, model_predict in Hd.
  specialize (Hgen (firstn requested test_images)
                (fst (forward (rng_state s) (firstn requested test_images)))
                (snd (forward (rng_state s) (firstn requested test_images)))).
  destruct (forward (rng_state s) (firstn requested test_images))
    as [p g1]. cbn [rng_state predict_calls fst snd] in *.
  destruct (generate_adversarial_data (firstn requested test_images) p g1)
    as [adv g2].
  injection Hd as Ed Es. subst d s1.
  cbn [x_images num_images predict_calls fst] in *.
  rewrite length_firstn in Hgen. unfold shape0.
  repeat split; lia.
Qed.

Lemma notebook_batches_and_calls_witness :
  forward_shape Demo.forward 2
  /\ (forall x p g,
        (length (fst (Demo.generate_adversarial_data x p g)) <= length x)%nat)
  /\ (num_images (fst (fst Demo.run)) <= 3)%nat
  /\ (num_images (fst (fst Demo.run)) <= length Demo.test_images)%nat
  /\ x_images (fst (fst Demo.run))
     = firstn (num_images (fst (fst Demo.run))) Demo.test_images
  /\ predict_calls (snd Demo.run)
     = (predict_calls Demo.start + 1 + 2 * 2)%nat.
Proof.
  assert (Hgen : forall x p g,
    (length (fst (Demo.generate_adversarial_data x p g)) <= length x)%nat).
  { intros x p g. unfold Demo.generate_adversarial_data. cbn [fst].
    rewrite length_firstn. lia. }
  split; [exact demo_forward_shape|]. split; [exact Hgen|].
  exact (notebook_batches_and_calls nat nat Demo.forward
           Demo.generate_adversarial_data 3 2 2 Demo.test_images Demo.start
           (fst (fst Demo.run)) (snd (fst Demo.run)) (snd Demo.run)
           demo_forward_shape Hgen eq_refl).
Defined.

(** X12.  Cell 1 divides the pixels by 255: images whose pixels are 8-bit
    values (0 to 255) come out with every entry inside the bounds (0, 1)
    that cell 11 declares to foolbox, with the same numbers of images, rows
    and columns, and the division keeps the order of the pixel values, so
    distinct grey levels stay distinct. *)
Theorem normalize_within_bounds (images : list (list (list Z))) :
  Forall (Forall (Forall (fun p => (0 <= p <= 255)%Z))) images ->
  Forall (Forall (Forall within_bounds)) (normalize images)
  /\ map (map (@length Q)) (normalize images) = map (map (@length Z)) images
  /\ (forall p q : Z, (p < q)%Z <-> normalize_pixel p < normalize_pixel q).
Proof.
  intros H. split; [|split].
  - unfold normalize. rewrite Forall_map.
    eapply Forall_impl; [|exact H]. intros img Himg. cbv beta.
    rewrite Forall_map. eapply Forall_impl; [|exact Himg].
    intros row Hrow. cbv beta. rewrite Forall_map.
    eapply Forall_impl; [|exact Hrow].
    intros px Hpx. now apply normalize_pixel_bounds.
  - unfold normalize. rewrite map_map. apply map_ext. intros img.
    rewrite map_map. apply map_ext. intros row. apply length_map.
  - apply normalize_pixel_lt.
Qed.

Lemma normalize_within_bounds_witness :
  Forall (Forall (Forall (fun p => (0 <= p <= 255)%Z)))
    [[[0; 255]; [128; 17]]]%Z
  /\ Forall (Forall (Forall within_bounds))
       (normalize [[[0; 255]; [128; 17]]]%Z)
  /\ map (map (@length Q)) (normalize [[[0; 255]; [128; 17]]]%Z)
     = map (map (@length Z)) [[[0; 255]; [128; 17]]]%Z
  /\ (forall p q : Z, (p < q)%Z <-> normalize_pixel p < normalize_pixel q).
Proof.
  assert (H : Forall (Forall (Forall (fun p => (0 <= p <= 255)%Z)))
                [[[0; 255]; [128; 17]]]%Z).
  { repeat constructor; lia. }
  split; [exact H|].
  exact (normalize_within_bounds [[[0; 255]; [128; 17]]]%Z H).
Defined.

(** ** Cell 15 over any arithmetic *)

Section AnyArithmetic.

Context {F : Type} (A : Num.arith F).

Lemma zip_add_length (r a : list F) :
  length (Num.zip_add A r a) = length r.
Proof.
  revert a. induction r as [|x r IH]; intros [|y a]; simpl; auto.
Qed.

Lemma add_blocks_rest (fuel : nat) (r a : list F) :
  (length a <= 8 * fuel + 7)%nat ->
  (length (snd (Num.add_blocks A fuel r a)) < 8)%nat.
Proof.
  revert r a. induction fuel as [|fuel IH]; intros r a Ha; cbn [Num.add_blocks].
  - cbn [snd]. lia.
  - destruct (Nat.leb_spec 8 (length a)) as [H8|H8]; [|cbn [snd]; lia].
    apply IH. rewrite length_skipn. lia.
Qed.

(** The halving of [pairwise_sum] never runs out of fuel: any two amounts
    of at least the number of entries give the same sum. *)
Lemma pairwise_sum_fuel (f1 : nat) :
  forall (f2 : nat) (a : list F),
    (length a <= f1)%nat -> (length a <= f2)%nat ->
    Num.pairwise_sum A f1 a = Num.pairwise_sum A f2 a.
Proof.
  induction f1 as [|f1 IH]; intros f2 a H1 H2.
  - destruct a; [|simpl in H1; lia]. now destruct f2.
  - destruct f2 as [|f2].
    + destruct a; [reflexivity | simpl in H2; lia].
    + cbn [Num.pairwise_sum].
      destruct (Nat.ltb_spec (length a) 8) as [H8|H8]; [reflexivity|].
      destruct (Nat.leb_spec (length a) 128) as [H128|H128]; [reflexivity|].
      assert (Hn2 : (0 < length a / 2 - (length a / 2) mod 8 < length a)%nat).
      { pose proof (Nat.mod_upper_bound (length a / 2) 8).
        pose proof (Nat.div_mod_eq (length a) 2).
        pose proof (Nat.mod_upper_bound (length a) 2). lia. }
      f_equal; apply IH;
        rewrite ?length_firstn, ?length_skipn; lia.
Qed.





End AnyArithmetic.

(** ** Cell 15 in exact arithmetic

    Over [Num.rational] the order of the additions does not matter: the cell
    is the expression [uncertainty]. *)

Section ExactReading.

Lemma of_nat_nonzero (n : nat) : (1 <= n)%nat -> ~ of_nat n == 0.
Proof. intros Hn E. pose proof (of_nat_pos n Hn) as H. rewrite E in H. lra. Qed.

Lemma fold_left_Qplus (l : list Q) (acc : Q) :
  fold_left Qplus l acc == acc + Np.sum1 l.
Proof.
  revert acc. induction l as [|x l IH]; intros acc; simpl; [ring|].
  rewrite IH. ring.
Qed.

Lemma zip_add_sum (r a : list Q) :
  length a = length r ->
  Np.sum1 (Num.zip_add Num.rational r a) == Np.sum1 r + Np.sum1 a.
Proof.
  revert a. induction r as [|x r IH]; intros [|y a] H; simpl in *;
    try discriminate; [ring|].
  rewrite IH by lia. ring.
Qed.

Lemma add_blocks_sum (fuel : nat) :
  forall r a : list Q,
    length r = 8%nat ->
    length (fst (Num.add_blocks Num.rational fuel r a)) = 8%nat
    /\ Np.sum1 (fst (Num.add_blocks Num.rational fuel r a))
       + Np.sum1 (snd (Num.add_blocks Num.rational fuel r a))
       == Np.sum1 r + Np.sum1 a.
Proof.
  induction fuel as [|fuel IH]; intros r a Hr; cbn [Num.add_blocks].
  - cbn [fst snd]. split; [exact Hr | reflexivity].
  - destruct (Nat.leb_spec 8 (length a)) as [H8|H8].
    + destruct (IH (Num.zip_add Num.rational r (firstn 8 a)) (skipn 8 a))
        as [Hl Hs].
      { now rewrite zip_add_length. }
      split; [exact Hl|]. rewrite Hs.
      rewrite zip_add_sum by (rewrite length_firstn; lia).
      rewrite <- (firstn_skipn 8 a) at 3. rewrite sum1_app. ring.
    + cbn [fst snd]. split; [exact Hr | reflexivity].
Qed.

Lemma tree8_sum (r : list Q) :
  length r = 8%nat -> Num.tree8 Num.rational r == Np.sum1 r.
Proof.
  intros H.
  do 8 (destruct r as [|? r]; [discriminate|]).
  destruct r; [|discriminate]. cbn. ring.
Qed.

Lemma pairwise_sum_exact (fuel : nat) :
  forall a : list Q,
    (length a <= fuel)%nat ->
    Num.pairwise_sum Num.rational fuel a == Np.sum1 a.
Proof.
  induction fuel as [|fuel IH]; intros a Ha.
  - destruct a; [reflexivity | simpl in Ha; lia].
  - cbn [Num.pairwise_sum].
    destruct (Nat.ltb_spec (length a) 8) as [H8|H8].
    { cbn [Num.add Num.zero Num.rational]. rewrite fold_left_Qplus. ring. }
    destruct (Nat.leb_spec (length a) 128) as [H128|H128].
    { destruct (add_blocks_sum (length a) (firstn 8 a) (skipn 8 a))
        as [Hl Hs].
      { rewrite length_firstn. lia. }
      destruct (Num.add_blocks Num.rational (length a) (firstn 8 a)
                  (skipn 8 a)) as [r rest].
      cbn [fst snd] in Hl, Hs. cbn [Num.add Num.rational].
      rewrite fold_left_Qplus, (tree8_sum r Hl), Hs.
      rewrite <- (firstn_skipn 8 a) at 3. now rewrite sum1_app. }
    assert (Hn2 : (0 < length a / 2 - (length a / 2) mod 8 < length a)%nat).
    { pose proof (Nat.mod_upper_bound (length a / 2) 8).
      pose proof (Nat.div_mod_eq (length a) 2).
      pose proof (Nat.mod_upper_bound (length a) 2). lia. }
    cbn [Num.add Num.rational].
    rewrite !IH by (rewrite ?length_firstn, ?length_skipn; lia).
    rewrite <- sum1_app, firstn_skipn. reflexivity.
Qed.

Lemma num_sum1_exact (a : list Q) : Num.sum1 Num.rational a == Np.sum1 a.
Proof.
  unfold Num.sum1. cbn [Num.add Num.zero Num.rational].
  rewrite pairwise_sum_exact by lia. ring.
Qed.

Lemma sum1_concat (P : array2) : Np.sum1 (concat P) == Np.sum2 P.
Proof.
  unfold Np.sum2. induction P as [|r P IH]; simpl; [reflexivity|].
  rewrite sum1_app, IH. reflexivity.
Qed.

Lemma Forall2_map_Qeq {X : Type} (f g : X -> Q) (l : list X) :
  (forall x, f x == g x) -> Forall2 Qeq (map f l) (map g l).
Proof.
  intros H. induction l as [|x l IH]; simpl; constructor; [apply H | exact IH].
Qed.

Lemma num_mean_axis0_exact (P : array2) :
  Forall2 Qeq (Num.mean_axis0 Num.rational P) (Np.mean_axis0 P).
Proof.
  unfold Num.mean_axis0, Np.mean_axis0, Np.shape0.
  change (Num.shape1 P) with (Np.shape1 P).
  apply Forall2_map_Qeq. intros j.
  cbn [Num.div Num.add Num.zero Num.of_count Num.rational].
  change (Num.column Num.rational j P) with (Np.column j P).
  rewrite fold_left_Qplus, Qplus_0_l. reflexivity.
Qed.

Lemma square1_vec_eq (u v : vector) :
  Forall2 Qeq u v -> Forall2 Qeq (Np.square1 u) (Np.square1 v).
Proof.
  induction 1 as [|x y u v Hxy _ IH]; simpl; constructor; [|exact IH].
  now rewrite Hxy.
Qed.

(** The cell over exact arithmetic is the expression [uncertainty]. *)
Lemma uncertainty_exact_reading (P : array2) :
  Num.uncertainty Num.rational P == uncertainty P.
Proof.
  unfold Num.uncertainty, uncertainty, Num.sum2, Np.shape0.
  cbn [Num.sub Num.div Num.of_count Num.rational].
  rewrite !num_sum1_exact.
  change (Num.square2 Num.rational P) with (Np.square2 P).
  change (Num.square1 Num.rational (Num.mean_axis0 Num.rational P))
    with (Np.square1 (Num.mean_axis0 Num.rational P)).
  rewrite sum1_concat.
  rewrite (sum1_vec_eq _ _ (square1_vec_eq _ _ (num_mean_axis0_exact P))).
  reflexivity.
Qed.

End ExactReading.

(** ** Cell 15 in binary64, evaluated *)

Section Binary64.

Lemma identical_rows_negative :
  Num.exact2 Rounding.identical_rows
  = Some [[5 # 536870912; 536870907 # 536870912];
          [5 # 536870912; 536870907 # 536870912];
          [5 # 536870912; 536870907 # 536870912]]
  /\ Num.exact (uncertainty64 Rounding.identical_rows)
     = Some (-1 # 9007199254740992)
  /\ ltb (uncertainty64 Rounding.identical_rows) 0 = true.
Proof. repeat split; vm_compute; reflexivity. Qed.

Lemma close_rows_zero :
  Num.exact2 Rounding.close_rows
  = Some [[1 # 67108864; 67108863 # 67108864];
          [1 # 134217728; 134217727 # 134217728]]
  /\ uncertainty64 Rounding.close_rows = 0%float.
Proof. split; vm_compute; reflexivity. Qed.







End Binary64.

(** ** The properties that depend on the arithmetic *)




(** C2, as the specification states it, fails on the notebook.  Three
    identical probability vectors [5/2^29, 1 - 5/2^29] get the score
    -1/2^53, which is negative and not 0; the two different probability
    vectors [2^-26, 1 - 2^-26] and [2^-27, 1 - 2^-27] get the score 0. *)
Lemma uncertainty64_sign_and_zero :
  (exists P : array2,
     Num.exact2 Rounding.identical_rows = Some P
     /\ Forall (Spec.probability_vector 2) P
     /\ Spec.all_identical P
     /\ ltb (uncertainty64 Rounding.identical_rows) 0 = true)
  /\ (exists P : array2,
        Num.exact2 Rounding.close_rows = Some P
        /\ Forall (Spec.probability_vector 2) P
        /\ ~ Spec.all_identical P
        /\ uncertainty64 Rounding.close_rows = 0%float).
Proof.
  split.
  - destruct identical_rows_negative as (H1 & _ & H3).
    eexists. split; [exact H1|]. split; [concrete|]. split; [|exact H3].
    intros p q Hp Hq. simpl in Hp, Hq.
    destruct Hp as [<-|[<-|[<-|[]]]]; destruct Hq as [<-|[<-|[<-|[]]]];
      apply vec_eq_refl.
  - destruct close_rows_zero as [H1 H2].
    eexists. split; [exact H1|]. split; [concrete|]. split; [|exact H2].
    intros H.
    specialize (H [1 # 67108864; 67108863 # 67108864]
                  [1 # 134217728; 134217727 # 134217728]
                  (or_introl eq_refl) (or_intror (or_introl eq_refl))).
    inversion H as [|x y u v Hxy _]. vm_compute in Hxy. discriminate.
Qed.

(** C2, amended.  Read in exact arithmetic, the score of L >= 2
    class-probability vectors over C classes is non-negative, it is zero
    exactly when the L vectors are identical, and it is the sum over the
    classes of the population variance of the class's probability across
    the passes.  In binary64 each of the three can fail: identical
    probability vectors can get a negative score and different ones the
    score 0. *)
Theorem uncertainty_nonneg_zero_iff_identical :
  (forall (L C : nat) (P : array2),
     (2 <= L)%nat -> length P = L -> Forall (Spec.probability_vector C) P ->
     0 <= Num.uncertainty Num.rational P
     /\ (Num.uncertainty Num.rational P == 0 <-> Spec.all_identical P)
     /\ Num.uncertainty Num.rational P == Spec.class_variances P)
  /\ (exists (Pf : list (list float)) (P : array2),
        Num.exact2 Pf = Some P
        /\ Forall (Spec.probability_vector 2) P
        /\ Spec.all_identical P
        /\ ltb (uncertainty64 Pf) 0 = true)
  /\ (exists (Pf : list (list float)) (P : array2),
        Num.exact2 Pf = Some P
        /\ Forall (Spec.probability_vector 2) P
        /\ ~ Spec.all_identical P
        /\ uncertainty64 Pf = 0%float).
Proof.
  split; [|split].
  - intros L C P H2 HL HP.
    pose proof (probability_vectors_shape L C P HL HP) as Hs.
    assert (H1 : (1 <= L)%nat) by lia.
    pose proof (uncertainty_class_variances L C P Hs H1) as E.
    rewrite !uncertainty_exact_reading.
    repeat split.
    + rewrite E. apply (class_variances_nonneg L C); assumption.
    + apply (uncertainty_zero_identical L C); assumption.
    + apply (uncertainty_identical L C); assumption.
    + exact E.
  - destruct identical_rows_negative as (H1 & _ & H3).
    exists Rounding.identical_rows. eexists.
    split; [exact H1|]. split; [concrete|]. split; [|exact H3].
    intros p q Hp Hq. simpl in Hp, Hq.
    destruct Hp as [<-|[<-|[<-|[]]]]; destruct Hq as [<-|[<-|[<-|[]]]];
      apply vec_eq_refl.
  - destruct close_rows_zero as [H1 H2].
    exists Rounding.close_rows. eexists.
    split; [exact H1|]. split; [concrete|]. split; [|exact H2].
    intros H.
    specialize (H [1 # 67108864; 67108863 # 67108864]
                  [1 # 134217728; 134217727 # 134217728]
                  (or_introl eq_refl) (or_intror (or_introl eq_refl))).
    inversion H as [|x y u v Hxy _]. vm_compute in Hxy. discriminate.
Qed.

Lemma uncertainty_nonneg_zero_iff_identical_witness :
  Forall (Spec.probability_vector 2) [[1; 0]; [0; 1]]
  /\ 0 <= Num.uncertainty Num.rational [[1; 0]; [0; 1]]
  /\ (Num.uncertainty Num.rational [[1; 0]; [0; 1]] == 0
      <-> Spec.all_identical [[1; 0]; [0; 1]])
  /\ Num.uncertainty Num.rational [[1; 0]; [0; 1]]
     == Spec.class_variances [[1; 0]; [0; 1]].
Proof.
  assert (HP : Forall (Spec.probability_vector 2) [[1; 0]; [0; 1]])
    by concrete.
  split; [exact HP|].
  apply (proj1 uncertainty_nonneg_zero_iff_identical 2%nat 2%nat
           [[1; 0]; [0; 1]]); [lia | reflexivity | exact HP].
Defined.









